(** * Direct Preference Optimization loss: a shallow embedding of [dpo_loss.py]

    The program is the single function [dpo_loss] of [src/dpo_loss.py].  It
    combines four one-dimensional tensors of log-probabilities and a scalar
    temperature [beta] with elementwise tensor arithmetic.

    Modelling choices.
    - A one-dimensional tensor is the list of its elements, and an element is
      a real number of [R]: the development is about the arithmetic the
      function denotes, not about its rounding in binary floating point.
      Properties whose truth turns on rounding are therefore not stated:
      strict comparisons between losses, and exact equality of the outcomes
      of two calls that round differently.
    - The tensor operators the function calls ([-] between tensors, [*] by a
      Python scalar, unary [-], [F.logsigmoid], [.detach()]) are library
      operations.  They are embedded in [Module Torch] with the library's
      semantics on one-dimensional tensors, broadcasting of a size-1
      dimension included, and with the library's [RuntimeError] on sizes
      that cannot be broadcast together.
    - A call either returns or raises: the function lives in the error monad
      [result]. *)

From Stdlib Require Import Reals Lra Lia.
From stdpp Require Import base option list gmap.

Local Open Scope R_scope.

Global Instance R_inhabited : Inhabited R := populate 0.

(** ** Results of a call: a value, or the exception raised *)

(** The only exception the arithmetic of [dpo_loss] can raise: the library
    reports "The size of tensor a ([size_a]) must match the size of tensor b
    ([size_b]) at non-singleton dimension 0". *)
Inductive error : Type :=
  | RuntimeError (size_a size_b : nat).

Inductive result (A : Type) : Type :=
  | Ok (a : A)
  | Raise (e : error).
Arguments Ok {A} a.
Arguments Raise {A} e.

Global Instance result_ret : MRet result := fun _ a => Ok a.

Global Instance result_bind : MBind result := fun _ _ k r =>
  match r with
  | Ok a => k a
  | Raise e => Raise e
  end.

Definition is_ok {A : Type} (r : result A) : bool :=
  match r with Ok _ => true | Raise _ => false end.

(** ** The tensor library, on one-dimensional tensors *)

Module Torch.

(** A one-dimensional tensor: the list of its elements. *)
Abbreviation tensor := (list R).

(** Size of the broadcast of two dimensions: equal sizes are kept, a size
    of 1 stretches to the other size, anything else is an error. *)
Definition broadcast_size (a b : nat) : option nat :=
  if (a =? b)%nat then Some a
  else if (a =? 1)%nat then Some b
  else if (b =? 1)%nat then Some a
  else None.

(** [expand n t]: the view of [t] at size [n].  A tensor that already has
    size [n] is itself; otherwise (size 1) its element is repeated. *)
Definition expand (n : nat) (t : tensor) : tensor :=
  if (length t =? n)%nat then t
  else match t with
       | x :: _ => replicate n x
       | [] => []
       end.

(** [a - b] *)
Definition sub (a b : tensor) : result tensor :=
  match broadcast_size (length a) (length b) with
  | Some n => Ok (zip_with Rminus (expand n a) (expand n b))
  | None => Raise (RuntimeError (length a) (length b))
  end.

(** [s * t] for a Python scalar [s] *)
Definition scale (s : R) (t : tensor) : tensor := Rmult s <$> t.

(** [-t] *)
Definition neg (t : tensor) : tensor := Ropp <$> t.

(** The scalar function behind [F.logsigmoid]: the logarithm of the
    logistic function, which the library evaluates in the stable form
    [min(x, 0) - log1p(exp(-|x|))]. *)
Definition log_sigmoid (x : R) : R :=
  Rmin x 0 - ln (1 + exp (- Rabs x)).

(** [F.logsigmoid(t)] *)
Definition logsigmoid (t : tensor) : tensor := log_sigmoid <$> t.

(** [t.detach()]: the same values, cut from the autograd graph. *)
Definition detach (t : tensor) : tensor := t.

End Torch.

(** ** The program *)

(** [dpo_loss(policy_chosen_logps, policy_rejected_logps, ref_chosen_logps,
    ref_rejected_logps, beta)], statement by statement. *)
Definition dpo_loss
    (policy_chosen_logps policy_rejected_logps
     ref_chosen_logps ref_rejected_logps : Torch.tensor) (beta : R)
    : result (Torch.tensor * Torch.tensor * Torch.tensor) :=
  chosen_logratios ← Torch.sub policy_chosen_logps ref_chosen_logps;
  rejected_logratios ← Torch.sub policy_rejected_logps ref_rejected_logps;
  diff ← Torch.sub chosen_logratios rejected_logratios;
  let logits := Torch.scale beta diff in
  let losses := Torch.neg (Torch.logsigmoid logits) in
  let chosen_rewards := Torch.scale beta (Torch.detach chosen_logratios) in
  let rejected_rewards := Torch.scale beta (Torch.detach rejected_logratios) in
  mret (losses, chosen_rewards, rejected_rewards).

(** The default value of the keyword argument [beta]. *)
Definition default_beta : R := 0.1.

(** ** The mathematical functions the specification names *)

(** The logistic function, [sigmoid(x) = 1 / (1 + exp(-x))]. *)
Definition sigmoid (x : R) : R := 1 / (1 + exp (- x)).

(** The direct evaluation [log(1 / (1 + exp(-x)))] of the logarithm of the
    logistic function. *)
Definition naive_log_sigmoid (x : R) : R := ln (sigmoid x).

(** [softplus(x) = max(x, 0) + log(1 + exp(-|x|))] *)
Definition softplus (x : R) : R := Rmax x 0 + ln (1 + exp (- Rabs x)).

(** ** The program on tensor objects

    In Python the arguments of [dpo_loss] are references to tensor objects
    and every tensor operation returns a reference to an object.  [Module
    Heap] runs the same statements over a store of tensor storages, so that
    what a call reads, allocates and leaves behind can be stated. *)

Module Heap.

(** A store maps the address of a storage to the values it holds. *)
Abbreviation store := (gmap nat Torch.tensor).

(** A computation reads and extends the store, and returns or raises. *)
Definition run (A : Type) : Type := store → result A * store.

Global Instance run_ret : MRet run := λ _ a σ, (Ok a, σ).

Global Instance run_bind : MBind run := λ _ _ k m σ,
  match m σ with
  | (Ok a, σ') => k a σ'
  | (Raise e, σ') => (Raise e, σ')
  end.

(** Reading the values of a tensor.  A reference held by a Python program
    is never dangling; an address outside the store reads as the empty
    tensor. *)
Definition load (p : nat) : run Torch.tensor := λ σ, (Ok (σ !!! p), σ).

(** A new tensor in a storage of its own. *)
Definition new (t : Torch.tensor) : run nat := λ σ,
  let p := fresh (dom σ) in (Ok p, <[p:=t]> σ).

(** The outcome of an operation on values, store untouched. *)
Definition lift {A : Type} (r : result A) : run A := λ σ, (r, σ).

(** [a - b] *)
Definition sub (a b : nat) : run nat :=
  x ← load a; y ← load b; z ← lift (Torch.sub x y); new z.

(** [s * t] *)
Definition scale (s : R) (a : nat) : run nat :=
  x ← load a; new (Torch.scale s x).

(** [-t] *)
Definition neg (a : nat) : run nat :=
  x ← load a; new (Torch.neg x).

(** [F.logsigmoid(t)] *)
Definition logsigmoid (a : nat) : run nat :=
  x ← load a; new (Torch.logsigmoid x).

(** [t.detach()]: a tensor on the storage of [t]. *)
Definition detach (a : nat) : run nat := mret a.

(** [dpo_loss] on references: each operator application of the source is
    one step, in the order Python evaluates them. *)
Definition dpo_loss
    (policy_chosen_logps policy_rejected_logps
     ref_chosen_logps ref_rejected_logps : nat) (beta : R)
    : run (nat * nat * nat) :=
  chosen_logratios ← sub policy_chosen_logps ref_chosen_logps;
  rejected_logratios ← sub policy_rejected_logps ref_rejected_logps;
  diff ← sub chosen_logratios rejected_logratios;
  logits ← scale beta diff;
  log_sigmoids ← logsigmoid logits;
  losses ← neg log_sigmoids;
  chosen_detached ← detach chosen_logratios;
  chosen_rewards ← scale beta chosen_detached;
  rejected_detached ← detach rejected_logratios;
  rejected_rewards ← scale beta rejected_detached;
  mret (losses, chosen_rewards, rejected_rewards).

(** [allocates m σ t]: run from [σ], [m] returns a reference that [σ] does
    not hold, and adds to [σ] just that reference, with the values [t]. *)
Definition allocates (m : run nat) (σ : store) (t : Torch.tensor) : Prop :=
  ∃ p, σ !! p = None ∧ m σ = (Ok p, <[p:=t]> σ).

End Heap.

(** ** The demonstration block

    The batch built under [__main__], and a store that holds it at the
    addresses 0 to 3. *)
Module Demo.

Definition p_chosen : Torch.tensor := [-1.0; -0.5].
Definition p_rejected : Torch.tensor := [-2.0; -1.5].
Definition r_chosen : Torch.tensor := [-1.1; -0.6].
Definition r_rejected : Torch.tensor := [-2.1; -1.6].

Definition store_1 : Heap.store :=
  {[ 0%nat := p_chosen; 1%nat := p_rejected;
     2%nat := r_chosen; 3%nat := r_rejected ]}.

End Demo.

(** The demonstration block under [__main__]: the call on the batch with
    the default [beta], the two rewards dropped.  [main] is the value of
    [loss] that the block then prints. *)
Definition main : result Torch.tensor :=
  match
    dpo_loss Demo.p_chosen Demo.p_rejected Demo.r_chosen Demo.r_rejected
      default_beta
  with
  | Ok (loss, _, _) => Ok loss
  | Raise e => Raise e
  end.

(** * Properties *)

(** ** The scalar loss [x ↦ - log_sigmoid x] *)

Section scalar_loss.

Implicit Types x y : R.

Lemma one_plus_exp_pos x : 0 < 1 + exp x.
Proof. pose proof (exp_pos x). lra. Qed.

Lemma sigmoid_pos x : 0 < sigmoid x.
Proof.
  unfold sigmoid. apply Rdiv_lt_0_compat; [lra | apply one_plus_exp_pos].
Qed.

Lemma sigmoid_lt_1 x : sigmoid x < 1.
Proof.
  unfold sigmoid. pose proof (exp_pos (- x)) as He.
  apply Rmult_lt_reg_r with (1 + exp (- x)); [lra |].
  unfold Rdiv. rewrite Rmult_assoc, Rinv_l by lra. lra.
Qed.

(** The logarithm of the logistic function, without the division. *)
Lemma ln_sigmoid x : ln (sigmoid x) = - ln (1 + exp (- x)).
Proof.
  unfold sigmoid, Rdiv. rewrite Rmult_1_l.
  apply ln_Rinv, one_plus_exp_pos.
Qed.

(** The stable form the library evaluates is the logarithm of the logistic
    function. *)
Lemma log_sigmoid_stable x : Torch.log_sigmoid x = - ln (1 + exp (- x)).
Proof.
  unfold Torch.log_sigmoid.
  destruct (Rle_lt_dec 0 x) as [Hx | Hx].
  - rewrite Rmin_right, Rabs_right by lra. lra.
  - rewrite Rmin_left, Rabs_left by lra. rewrite Ropp_involutive.
    replace (1 + exp (- x)) with (exp (- x) * (1 + exp x)).
    + rewrite ln_mult, ln_exp; [lra | apply exp_pos | apply one_plus_exp_pos].
    + rewrite Rmult_plus_distr_l, Rmult_1_r, <- exp_plus.
      replace (- x + x) with 0 by lra. rewrite exp_0. lra.
Qed.

Lemma log_sigmoid_naive x : Torch.log_sigmoid x = naive_log_sigmoid x.
Proof. unfold naive_log_sigmoid. now rewrite ln_sigmoid, log_sigmoid_stable. Qed.

Lemma log_sigmoid_softplus x : Torch.log_sigmoid x = - softplus (- x).
Proof.
  unfold Torch.log_sigmoid, softplus. rewrite Rabs_Ropp.
  destruct (Rle_lt_dec 0 x) as [Hx | Hx].
  - rewrite Rmin_right, Rmax_right by lra. lra.
  - rewrite Rmin_left, Rmax_left by lra. lra.
Qed.

Lemma neg_log_sigmoid_pos x : 0 < - Torch.log_sigmoid x.
Proof.
  rewrite log_sigmoid_stable, Ropp_involutive, <- ln_1.
  apply ln_increasing; [lra |]. pose proof (exp_pos (- x)). lra.
Qed.

Lemma neg_log_sigmoid_decreasing x y :
  x < y → - Torch.log_sigmoid y < - Torch.log_sigmoid x.
Proof.
  intros Hxy. rewrite !log_sigmoid_stable, !Ropp_involutive.
  apply ln_increasing; [apply one_plus_exp_pos |].
  apply Rplus_lt_compat_l, exp_increasing. lra.
Qed.

Lemma neg_log_sigmoid_0 : - Torch.log_sigmoid 0 = ln 2.
Proof.
  rewrite log_sigmoid_stable, Ropp_involutive, Ropp_0, exp_0.
  f_equal; lra.
Qed.

(** The loss stays within [ln 2] of [max(-x, 0)]: no term of the stable
    form grows with [exp |x|]. *)
Lemma neg_log_sigmoid_bounds x :
  Rmax (- x) 0 < - Torch.log_sigmoid x <= Rmax (- x) 0 + ln 2.
Proof.
  rewrite log_sigmoid_softplus, Ropp_involutive. unfold softplus.
  pose proof (exp_pos (- Rabs (- x))) as He.
  assert (exp (- Rabs (- x)) <= 1) as Hle.
  { rewrite <- exp_0. destruct (Rabs_pos (- x)) as [Hlt | Heq].
    - left. apply exp_increasing. lra.
    - rewrite <- Heq, Ropp_0. lra. }
  assert (0 < ln (1 + exp (- Rabs (- x)))) as Hpos.
  { rewrite <- ln_1. apply ln_increasing; lra. }
  assert (ln (1 + exp (- Rabs (- x))) <= ln 2) as Hup.
  { destruct Hle as [Hlt | Heq].
    - left. apply ln_increasing; lra.
    - rewrite Heq. right. f_equal; lra. }
  lra.
Qed.

(** For a logit [x <= 0] the loss exceeds [-x] by less than [exp x]. *)
Lemma neg_log_sigmoid_negative_logit x :
  x <= 0 → - x < - Torch.log_sigmoid x < - x + exp x.
Proof.
  intros Hx. unfold Torch.log_sigmoid.
  rewrite Rmin_left, Rabs_left1, Ropp_involutive by lra.
  pose proof (exp_pos x) as He.
  assert (0 < ln (1 + exp x)) as Hpos.
  { rewrite <- ln_1. apply ln_increasing; lra. }
  assert (ln (1 + exp x) < exp x) as Hup.
  { rewrite <- (ln_exp (exp x)) at 2.
    apply ln_increasing; [lra |]. apply exp_ineq1. lra. }
  lra.
Qed.

(** At the logit [-100] the loss is [100] up to [exp (-100)]. *)
Example neg_log_sigmoid_minus_100 :
  100 < - Torch.log_sigmoid (-100) < 100 + exp (-100).
Proof.
  assert (-100 <= 0) as Hle by lra.
  pose proof (neg_log_sigmoid_negative_logit (-100) Hle). lra.
Qed.

End scalar_loss.

(** ** Tensor operations *)

Section tensor_ops.

Implicit Types a b t : Torch.tensor.
Implicit Types n : nat.

Lemma broadcast_size_same n : Torch.broadcast_size n n = Some n.
Proof. unfold Torch.broadcast_size. now rewrite Nat.eqb_refl. Qed.

Lemma broadcast_size_None n m :
  Torch.broadcast_size n m = None ↔ n ≠ m ∧ n ≠ 1%nat ∧ m ≠ 1%nat.
Proof.
  unfold Torch.broadcast_size.
  destruct (Nat.eqb_spec n m), (Nat.eqb_spec n 1), (Nat.eqb_spec m 1);
    split; try discriminate; try tauto; intros (? & ? & ?); congruence.
Qed.

Lemma expand_same t : Torch.expand (length t) t = t.
Proof. unfold Torch.expand. now rewrite Nat.eqb_refl. Qed.

Lemma expand_fmap (f : R → R) n t :
  Torch.expand n (f <$> t) = f <$> Torch.expand n t.
Proof.
  unfold Torch.expand. rewrite length_fmap.
  destruct (length t =? n)%nat; [reflexivity |].
  destruct t as [| x t]; simpl; [reflexivity |].
  now rewrite fmap_replicate.
Qed.

Lemma sub_same_length a b :
  length a = length b → Torch.sub a b = Ok (zip_with Rminus a b).
Proof.
  intros Hab. unfold Torch.sub.
  rewrite Hab, broadcast_size_same, <- Hab, expand_same, Hab, expand_same.
  reflexivity.
Qed.

Lemma sub_raises a b :
  length a ≠ length b → length a ≠ 1%nat → length b ≠ 1%nat →
  Torch.sub a b = Raise (RuntimeError (length a) (length b)).
Proof.
  intros Hne Ha Hb. unfold Torch.sub.
  now rewrite (proj2 (broadcast_size_None _ _)).
Qed.

(** A subtraction returns exactly when the sizes agree or one of them
    is 1. *)
Lemma sub_returns_iff a b :
  is_ok (Torch.sub a b) = true ↔
  length a = length b ∨ length a = 1%nat ∨ length b = 1%nat.
Proof.
  unfold Torch.sub.
  destruct (Torch.broadcast_size (length a) (length b)) as [n |] eqn:Hn;
    simpl.
  - split; [intros _ | reflexivity].
    destruct (decide (length a = length b)) as [| Hab]; [now left |].
    destruct (decide (length a = 1%nat)) as [| Ha]; [now (right; left) |].
    destruct (decide (length b = 1%nat)) as [| Hb]; [now (right; right) |].
    pose proof (proj2 (broadcast_size_None _ _) (conj Hab (conj Ha Hb))).
    congruence.
  - apply broadcast_size_None in Hn. split; [discriminate | tauto].
Qed.

Lemma sub_length a b t :
  Torch.sub a b = Ok t → Torch.broadcast_size (length a) (length b) = Some (length t).
Proof.
  unfold Torch.sub.
  destruct (Torch.broadcast_size (length a) (length b)) as [n |] eqn:Hn;
    [| discriminate].
  intros [= <-]. f_equal. rewrite length_zip_with.
  revert Hn. unfold Torch.broadcast_size, Torch.expand.
  destruct (Nat.eqb_spec (length a) (length b)) as [Hab | Hab].
  { intros [= <-]. rewrite Nat.eqb_refl, <- Hab, Nat.eqb_refl. lia. }
  destruct (Nat.eqb_spec (length a) 1) as [Ha | Ha].
  { intros [= <-]. rewrite Nat.eqb_refl.
    destruct (Nat.eqb_spec (length a) (length b)); [lia |].
    destruct a; [discriminate |]. rewrite length_replicate. lia. }
  destruct (Nat.eqb_spec (length b) 1) as [Hb | Hb]; [| discriminate].
  intros [= <-]. rewrite Nat.eqb_refl.
  destruct (Nat.eqb_spec (length b) (length a)); [lia |].
  destruct b; [discriminate |]. rewrite length_replicate. lia.
Qed.

End tensor_ops.

(** ** The call on inputs of equal length *)

Section equal_length.

Implicit Types pc pr rc rr : Torch.tensor.
Implicit Types beta : R.
Implicit Types N i : nat.

(** On inputs of one length no subtraction broadcasts, and the three
    outputs are the elementwise expressions of the source. *)
Lemma dpo_loss_equal_length pc pr rc rr beta N :
  length pc = N → length pr = N → length rc = N → length rr = N →
  dpo_loss pc pr rc rr beta =
    Ok (Torch.neg (Torch.logsigmoid (Torch.scale beta
          (zip_with Rminus (zip_with Rminus pc rc) (zip_with Rminus pr rr)))),
        Torch.scale beta (zip_with Rminus pc rc),
        Torch.scale beta (zip_with Rminus pr rr)).
Proof.
  intros Hpc Hpr Hrc Hrr. unfold dpo_loss.
  rewrite (sub_same_length pc rc) by congruence.
  rewrite (sub_same_length pr rr) by congruence. simpl.
  rewrite sub_same_length by (rewrite !length_zip_with; lia).
  reflexivity.
Qed.

(** Reading index [i] of the outputs, for [i] within the inputs. *)
Lemma dpo_loss_elementwise pc pr rc rr beta N :
  length pc = N → length pr = N → length rc = N → length rr = N →
  ∃ losses chosen_rewards rejected_rewards,
    dpo_loss pc pr rc rr beta = Ok (losses, chosen_rewards, rejected_rewards) ∧
    length losses = N ∧ length chosen_rewards = N ∧
    length rejected_rewards = N ∧
    ∀ i, (i < N)%nat →
      losses !!! i =
        - Torch.log_sigmoid
            (beta * ((pc !!! i - rc !!! i) - (pr !!! i - rr !!! i))) ∧
      chosen_rewards !!! i = beta * (pc !!! i - rc !!! i) ∧
      rejected_rewards !!! i = beta * (pr !!! i - rr !!! i).
Proof.
  intros Hpc Hpr Hrc Hrr.
  rewrite (dpo_loss_equal_length pc pr rc rr beta N) by assumption.
  eexists _, _, _. split; [reflexivity |].
  unfold Torch.neg, Torch.logsigmoid, Torch.scale.
  rewrite !length_fmap, !length_zip_with.
  split; [lia |]. split; [lia |]. split; [lia |]. intros i Hi.
  destruct (lookup_lt_is_Some_2 pc i) as [a Ha]; [lia |].
  destruct (lookup_lt_is_Some_2 pr i) as [b Hb]; [lia |].
  destruct (lookup_lt_is_Some_2 rc i) as [c Hc]; [lia |].
  destruct (lookup_lt_is_Some_2 rr i) as [d Hd]; [lia |].
  rewrite (list_lookup_total_correct _ _ _ Ha),
    (list_lookup_total_correct _ _ _ Hb),
    (list_lookup_total_correct _ _ _ Hc),
    (list_lookup_total_correct _ _ _ Hd).
  repeat split; apply list_lookup_total_correct;
    rewrite !list_lookup_fmap, !lookup_zip_with, ?Ha, ?Hb, ?Hc, ?Hd;
    reflexivity.
Qed.

End equal_length.

(** ** What a call on inputs of equal length returns *)

Section claims_equal_length.

Implicit Types pc pr rc rr : Torch.tensor.
Implicit Types beta : R.
Implicit Types N i : nat.

(** C1.  On four inputs of equal length [N] and any [beta], the call
    returns, and at every index [i < N] the loss is
    [-log(sigmoid(beta * ((policy_chosen[i] - ref_chosen[i]) -
    (policy_rejected[i] - ref_rejected[i]))))]: the stable form evaluated by
    [F.logsigmoid] is the logarithm of the logistic function. *)
Theorem dpo_loss_neg_log_sigmoid pc pr rc rr beta N :
  length pc = N → length pr = N → length rc = N → length rr = N →
  ∃ losses chosen_rewards rejected_rewards,
    dpo_loss pc pr rc rr beta = Ok (losses, chosen_rewards, rejected_rewards) ∧
    length losses = N ∧
    ∀ i, (i < N)%nat →
      losses !!! i =
        - ln (sigmoid (beta * ((pc !!! i - rc !!! i) - (pr !!! i - rr !!! i)))).
Proof.
  intros Hpc Hpr Hrc Hrr.
  destruct (dpo_loss_elementwise pc pr rc rr beta N Hpc Hpr Hrc Hrr)
    as (losses & cr & rw & Hcall & Hlen & _ & _ & Hidx).
  exists losses, cr, rw. split; [exact Hcall |]. split; [exact Hlen |].
  intros i Hi. destruct (Hidx i Hi) as (Hloss & _ & _).
  rewrite Hloss, log_sigmoid_naive. reflexivity.
Qed.

Lemma dpo_loss_neg_log_sigmoid_demo :
  ∃ losses chosen_rewards rejected_rewards,
    dpo_loss Demo.p_chosen Demo.p_rejected Demo.r_chosen Demo.r_rejected
      default_beta = Ok (losses, chosen_rewards, rejected_rewards) ∧
    length losses = 2%nat ∧
    ∀ i, (i < 2)%nat →
      losses !!! i =
        - ln (sigmoid (default_beta *
            ((Demo.p_chosen !!! i - Demo.r_chosen !!! i) -
             (Demo.p_rejected !!! i - Demo.r_rejected !!! i)))).
Proof.
  apply (dpo_loss_neg_log_sigmoid Demo.p_chosen Demo.p_rejected
           Demo.r_chosen Demo.r_rejected default_beta 2); reflexivity.
Defined.

(** C3.  On inputs of equal length, at every index [i] the chosen reward is
    [beta * (policy_chosen[i] - ref_chosen[i])] and the rejected reward is
    [beta * (policy_rejected[i] - ref_rejected[i])]. *)
Theorem dpo_loss_rewards pc pr rc rr beta N :
  length pc = N → length pr = N → length rc = N → length rr = N →
  ∃ losses chosen_rewards rejected_rewards,
    dpo_loss pc pr rc rr beta = Ok (losses, chosen_rewards, rejected_rewards) ∧
    ∀ i, (i < N)%nat →
      chosen_rewards !!! i = beta * (pc !!! i - rc !!! i) ∧
      rejected_rewards !!! i = beta * (pr !!! i - rr !!! i).
Proof.
  intros Hpc Hpr Hrc Hrr.
  destruct (dpo_loss_elementwise pc pr rc rr beta N Hpc Hpr Hrc Hrr)
    as (losses & cr & rw & Hcall & _ & _ & _ & Hidx).
  exists losses, cr, rw. split; [exact Hcall |].
  intros i Hi. destruct (Hidx i Hi) as (_ & Hc & Hr). now split.
Qed.

Lemma dpo_loss_rewards_demo :
  ∃ losses chosen_rewards rejected_rewards,
    dpo_loss Demo.p_chosen Demo.p_rejected Demo.r_chosen Demo.r_rejected
      default_beta = Ok (losses, chosen_rewards, rejected_rewards) ∧
    ∀ i, (i < 2)%nat →
      chosen_rewards !!! i =
        default_beta * (Demo.p_chosen !!! i - Demo.r_chosen !!! i) ∧
      rejected_rewards !!! i =
        default_beta * (Demo.p_rejected !!! i - Demo.r_rejected !!! i).
Proof.
  apply (dpo_loss_rewards Demo.p_chosen Demo.p_rejected
           Demo.r_chosen Demo.r_rejected default_beta 2); reflexivity.
Defined.

(** C5.  On inputs of equal length and for any [beta], every loss is
    non-negative, and over the reals strictly positive. *)
Theorem dpo_loss_losses_positive pc pr rc rr beta N :
  length pc = N → length pr = N → length rc = N → length rr = N →
  ∃ losses chosen_rewards rejected_rewards,
    dpo_loss pc pr rc rr beta = Ok (losses, chosen_rewards, rejected_rewards) ∧
    ∀ i, (i < N)%nat → 0 <= losses !!! i ∧ 0 < losses !!! i.
Proof.
  intros Hpc Hpr Hrc Hrr.
  destruct (dpo_loss_elementwise pc pr rc rr beta N Hpc Hpr Hrc Hrr)
    as (losses & cr & rw & Hcall & _ & _ & _ & Hidx).
  exists losses, cr, rw. split; [exact Hcall |].
  intros i Hi. destruct (Hidx i Hi) as (Hloss & _ & _). rewrite Hloss.
  pose proof (neg_log_sigmoid_pos
    (beta * ((pc !!! i - rc !!! i) - (pr !!! i - rr !!! i)))).
  lra.
Qed.

Lemma dpo_loss_losses_positive_demo :
  ∃ losses chosen_rewards rejected_rewards,
    dpo_loss Demo.p_chosen Demo.p_rejected Demo.r_chosen Demo.r_rejected
      default_beta = Ok (losses, chosen_rewards, rejected_rewards) ∧
    ∀ i, (i < 2)%nat → 0 <= losses !!! i ∧ 0 < losses !!! i.
Proof.
  apply (dpo_loss_losses_positive Demo.p_chosen Demo.p_rejected
           Demo.r_chosen Demo.r_rejected default_beta 2); reflexivity.
Defined.

(** C6.  On inputs of equal length whose chosen and rejected log-ratios
    agree at every index (so that every logit is 0), every loss is
    [log 2]. *)
Theorem dpo_loss_symmetric pc pr rc rr beta N :
  length pc = N → length pr = N → length rc = N → length rr = N →
  (∀ i, (i < N)%nat → pc !!! i - rc !!! i = pr !!! i - rr !!! i) →
  ∃ losses chosen_rewards rejected_rewards,
    dpo_loss pc pr rc rr beta = Ok (losses, chosen_rewards, rejected_rewards) ∧
    length losses = N ∧
    ∀ i, (i < N)%nat → losses !!! i = ln 2.
Proof.
  intros Hpc Hpr Hrc Hrr Hsym.
  destruct (dpo_loss_elementwise pc pr rc rr beta N Hpc Hpr Hrc Hrr)
    as (losses & cr & rw & Hcall & Hlen & _ & _ & Hidx).
  exists losses, cr, rw. split; [exact Hcall |]. split; [exact Hlen |].
  intros i Hi. destruct (Hidx i Hi) as (Hloss & _ & _).
  rewrite Hloss, (Hsym i Hi), Rminus_diag, Rmult_0_r.
  apply neg_log_sigmoid_0.
Qed.

Lemma dpo_loss_symmetric_demo :
  ∃ losses chosen_rewards rejected_rewards,
    dpo_loss Demo.p_chosen Demo.p_rejected Demo.r_chosen Demo.r_rejected
      default_beta = Ok (losses, chosen_rewards, rejected_rewards) ∧
    length losses = 2%nat ∧
    ∀ i, (i < 2)%nat → losses !!! i = ln 2.
Proof.
  apply (dpo_loss_symmetric Demo.p_chosen Demo.p_rejected
           Demo.r_chosen Demo.r_rejected default_beta 2);
    try reflexivity.
  intros [| [| i]] Hi; [simpl; lra | simpl; lra | lia].
Defined.

(** C8.  On four inputs of equal length [N], [N = 0] included, the call
    returns three sequences (losses, chosen rewards, rejected rewards), each
    of length [N], and entry [i] of each is computed from entries [i] of the
    inputs. *)
Theorem dpo_loss_shape pc pr rc rr beta N :
  length pc = N → length pr = N → length rc = N → length rr = N →
  ∃ losses chosen_rewards rejected_rewards,
    dpo_loss pc pr rc rr beta = Ok (losses, chosen_rewards, rejected_rewards) ∧
    length losses = N ∧ length chosen_rewards = N ∧
    length rejected_rewards = N ∧
    ∀ i, (i < N)%nat →
      losses !!! i =
        - Torch.log_sigmoid
            (beta * ((pc !!! i - rc !!! i) - (pr !!! i - rr !!! i))) ∧
      chosen_rewards !!! i = beta * (pc !!! i - rc !!! i) ∧
      rejected_rewards !!! i = beta * (pr !!! i - rr !!! i).
Proof. apply dpo_loss_elementwise. Qed.

Lemma dpo_loss_shape_demo :
  ∃ losses chosen_rewards rejected_rewards,
    dpo_loss Demo.p_chosen Demo.p_rejected Demo.r_chosen Demo.r_rejected
      default_beta = Ok (losses, chosen_rewards, rejected_rewards) ∧
    length losses = 2%nat ∧ length chosen_rewards = 2%nat ∧
    length rejected_rewards = 2%nat ∧
    ∀ i, (i < 2)%nat →
      losses !!! i =
        - Torch.log_sigmoid
            (default_beta *
               ((Demo.p_chosen !!! i - Demo.r_chosen !!! i)
                - (Demo.p_rejected !!! i - Demo.r_rejected !!! i))) ∧
      chosen_rewards !!! i =
        default_beta * (Demo.p_chosen !!! i - Demo.r_chosen !!! i) ∧
      rejected_rewards !!! i =
        default_beta * (Demo.p_rejected !!! i - Demo.r_rejected !!! i).
Proof.
  apply (dpo_loss_shape Demo.p_chosen Demo.p_rejected
           Demo.r_chosen Demo.r_rejected default_beta 2); reflexivity.
Defined.

(** The concrete scenario of the demonstration block: both logits are 0,
    both losses [log 2], all rewards [0.01]. *)
Example dpo_loss_demo :
  dpo_loss Demo.p_chosen Demo.p_rejected Demo.r_chosen Demo.r_rejected
    default_beta = Ok ([ln 2; ln 2], [0.01; 0.01], [0.01; 0.01]).
Proof.
  rewrite (dpo_loss_equal_length _ _ _ _ _ 2) by reflexivity.
  unfold default_beta. cbn. unfold Torch.detach.
  repeat match goal with
         | |- context [Torch.log_sigmoid ?x] =>
             replace x with 0 by lra; rewrite <- neg_log_sigmoid_0
         end.
  repeat f_equal; lra.
Qed.

(** The empty batch: three empty outputs. *)
Example dpo_loss_empty_batch beta : dpo_loss [] [] [] [] beta = Ok ([], [], []).
Proof. reflexivity. Qed.

End claims_equal_length.

(** ** Inputs of different lengths *)

Section mismatch.

Implicit Types pc pr rc rr a b : Torch.tensor.
Implicit Types beta : R.

(** A tensor of one element subtracts from every tensor, whatever its
    length: the element is repeated. *)
Lemma sub_broadcast_l (x : R) b :
  Torch.sub [x] b = Ok (Rminus x <$> b).
Proof.
  destruct b as [| y [| z b]]; try reflexivity.
  unfold Torch.sub, Torch.broadcast_size, Torch.expand.
  cbn [length Nat.eqb]. rewrite Nat.eqb_refl. f_equal.
  now apply (zip_with_replicate_l Rminus).
Qed.

(** C4, as the claim states it, fails on an input of length 1: the call on
    a one-element [policy_chosen_logps] and three-element other inputs
    returns, and returns what the call on the padded input
    [[-1; -1; -1]] returns. *)
Lemma dpo_loss_length_1_broadcast :
  ¬ (length [-1] = length [-2; -1.5; -3] ∧
     length [-2; -1.5; -3] = length [-1.1; -0.6; -2.9] ∧
     length [-1.1; -0.6; -2.9] = length [-2.1; -1.6; -3.1]) ∧
  is_ok (dpo_loss [-1] [-2; -1.5; -3] [-1.1; -0.6; -2.9] [-2.1; -1.6; -3.1]
           default_beta) = true ∧
  dpo_loss [-1] [-2; -1.5; -3] [-1.1; -0.6; -2.9] [-2.1; -1.6; -3.1]
      default_beta
    = dpo_loss [-1; -1; -1] [-2; -1.5; -3] [-1.1; -0.6; -2.9]
        [-2.1; -1.6; -3.1] default_beta.
Proof.
  split; [intros (H & _); discriminate H |].
  split; reflexivity.
Qed.

(** C4, amended.  When the four inputs do not all have the same length and
    none of them has length 1, the call raises the size-mismatch
    [RuntimeError] of an elementwise subtraction: of the two policy/reference
    subtractions, or of the subtraction of the two log-ratios. *)
Theorem dpo_loss_mismatch_raises pc pr rc rr beta :
  length pc ≠ 1%nat → length pr ≠ 1%nat →
  length rc ≠ 1%nat → length rr ≠ 1%nat →
  ¬ (length pc = length pr ∧ length pr = length rc ∧ length rc = length rr) →
  ∃ size_a size_b,
    dpo_loss pc pr rc rr beta = Raise (RuntimeError size_a size_b) ∧
    size_a ≠ size_b ∧
    ((size_a = length pc ∧ size_b = length rc) ∨
     (size_a = length pr ∧ size_b = length rr) ∨
     (length pc = length rc ∧ length pr = length rr ∧
      size_a = length pc ∧ size_b = length pr)).
Proof.
  intros Hpc Hpr Hrc Hrr Hne. unfold dpo_loss.
  destruct (decide (length pc = length rc)) as [Hc | Hc].
  2: { exists (length pc), (length rc).
       rewrite (sub_raises pc rc) by assumption. simpl. tauto. }
  rewrite (sub_same_length pc rc) by assumption. simpl.
  destruct (decide (length pr = length rr)) as [Hr | Hr].
  2: { exists (length pr), (length rr).
       rewrite (sub_raises pr rr) by assumption. simpl. tauto. }
  rewrite (sub_same_length pr rr) by assumption. simpl.
  assert (length pc ≠ length pr) as Hcr by (intros Heq; apply Hne; lia).
  exists (length pc), (length pr).
  rewrite sub_raises by (rewrite !length_zip_with; lia).
  rewrite !length_zip_with. simpl.
  replace (length pc `min` length rc)%nat with (length pc) by lia.
  replace (length pr `min` length rr)%nat with (length pr) by lia.
  tauto.
Qed.

Lemma dpo_loss_mismatch_raises_3_2 :
  ∃ size_a size_b,
    dpo_loss [-1; -0.5; -3] [-2; -1.5; -3] [-1.1; -0.6] [-2.1; -1.6; -3.1]
      default_beta = Raise (RuntimeError size_a size_b) ∧
    size_a ≠ size_b ∧
    ((size_a = 3%nat ∧ size_b = 2%nat) ∨
     (size_a = 3%nat ∧ size_b = 3%nat) ∨
     (3 = 2 ∧ 3 = 3 ∧ size_a = 3 ∧ size_b = 3)%nat).
Proof.
  apply (dpo_loss_mismatch_raises
           [-1; -0.5; -3] [-2; -1.5; -3] [-1.1; -0.6] [-2.1; -1.6; -3.1]
           default_beta); simpl; lia.
Defined.

End mismatch.

(** ** The call on tensor objects *)

Section heap.

Implicit Types σ : Heap.store.
Implicit Types p q : nat.
Implicit Types x y t : Torch.tensor.

Lemma load_allocated σ p x : σ !! p = Some x → Heap.load p σ = (Ok x, σ).
Proof.
  intros Hp. unfold Heap.load. now rewrite (lookup_total_correct σ p x Hp).
Qed.

End heap.

(** * Further properties of the call *)

(** ** More on the scalar loss *)

Section scalar_loss_more.

Implicit Types x y : R.

(** Negating the logit adds the logit to the loss. *)
Lemma neg_log_sigmoid_opp x :
  - Torch.log_sigmoid (- x) = - Torch.log_sigmoid x + x.
Proof.
  rewrite !log_sigmoid_stable, !Ropp_involutive.
  replace (1 + exp x) with (exp x * (1 + exp (- x))).
  - rewrite ln_mult, ln_exp; [lra | apply exp_pos | apply one_plus_exp_pos].
  - rewrite Rmult_plus_distr_l, Rmult_1_r, <- exp_plus.
    replace (x + - x) with 0 by lra. rewrite exp_0. lra.
Qed.

(** The loss moves by less than the logit does. *)
Lemma neg_log_sigmoid_lipschitz x y :
  Rabs (- Torch.log_sigmoid x - - Torch.log_sigmoid y) <= Rabs (x - y).
Proof.
  assert (∀ u v, u < v →
            0 < - Torch.log_sigmoid u - - Torch.log_sigmoid v < v - u) as Hlt.
  { intros u v Huv.
    pose proof (neg_log_sigmoid_decreasing u v Huv).
    assert (- v < - u) as Hopp by lra.
    pose proof (neg_log_sigmoid_decreasing (- v) (- u) Hopp) as Hdec.
    rewrite !neg_log_sigmoid_opp in Hdec. lra. }
  destruct (Rtotal_order x y) as [Hxy | [-> | Hxy]].
  - specialize (Hlt x y Hxy). rewrite Rabs_right, Rabs_left by lra. lra.
  - rewrite !Rminus_diag. lra.
  - specialize (Hlt y x Hxy). rewrite Rabs_left, Rabs_right by lra. lra.
Qed.

End scalar_loss_more.

(** ** Losses and rewards of one call *)

Section losses_and_rewards.

Implicit Types pc pr rc rr : Torch.tensor.
Implicit Types beta : R.
Implicit Types N i : nat.



End losses_and_rewards.

(** ** Special inputs: swapped pairs, [beta <= 0], policy equal to reference *)

Section special_inputs.

Implicit Types pc pr rc rr t : Torch.tensor.
Implicit Types beta : R.
Implicit Types N i : nat.

Lemma zip_with_Rminus_diag t : zip_with Rminus t t = replicate (length t) 0.
Proof. induction t as [| x t IH]; simpl; [reflexivity |]. f_equal; [lra | exact IH]. Qed.

Lemma zip_with_Rminus_replicate_0 n :
  zip_with Rminus (replicate n 0) (replicate n 0) = replicate n 0.
Proof. rewrite zip_with_replicate. f_equal. lra. Qed.

Lemma scale_0 t : Torch.scale 0 t = replicate (length t) 0.
Proof.
  unfold Torch.scale. induction t as [| x t IH]; simpl; [reflexivity |].
  f_equal; [lra | exact IH].
Qed.

Lemma scale_replicate_0 beta n :
  Torch.scale beta (replicate n 0) = replicate n 0.
Proof. unfold Torch.scale. rewrite fmap_replicate. f_equal. lra. Qed.

Lemma losses_replicate_0 n :
  Torch.neg (Torch.logsigmoid (replicate n 0)) = replicate n (ln 2).
Proof.
  unfold Torch.neg, Torch.logsigmoid. rewrite !fmap_replicate.
  f_equal. apply neg_log_sigmoid_0.
Qed.





(** X6.  [beta = 0] is accepted: on inputs of equal length [N] every loss
    is [log 2] and every reward is 0, whatever the inputs hold. *)
Theorem dpo_loss_beta_0 pc pr rc rr N :
  length pc = N → length pr = N → length rc = N → length rr = N →
  dpo_loss pc pr rc rr 0
    = Ok (replicate N (ln 2), replicate N 0, replicate N 0).
Proof.
  intros Hpc Hpr Hrc Hrr.
  rewrite (dpo_loss_equal_length pc pr rc rr 0 N) by assumption.
  rewrite !scale_0, !length_zip_with, losses_replicate_0.
  replace ((length pc `min` length rc) `min` (length pr `min` length rr))%nat
    with N by lia.
  replace (length pc `min` length rc)%nat with N by lia.
  replace (length pr `min` length rr)%nat with N by lia.
  reflexivity.
Qed.

Lemma dpo_loss_beta_0_demo :
  dpo_loss Demo.p_chosen [-7; 3] Demo.r_chosen Demo.r_rejected 0
    = Ok (replicate 2 (ln 2), replicate 2 0, replicate 2 0).
Proof.
  apply (dpo_loss_beta_0 Demo.p_chosen [-7; 3] Demo.r_chosen Demo.r_rejected 2);
    reflexivity.
Defined.

(** X7.  When the policy inputs are the reference inputs, every loss is
    [log 2] and every reward is 0, for any [beta]. *)
Theorem dpo_loss_policy_is_reference pc pr beta N :
  length pc = N → length pr = N →
  dpo_loss pc pr pc pr beta
    = Ok (replicate N (ln 2), replicate N 0, replicate N 0).
Proof.
  intros Hpc Hpr.
  rewrite (dpo_loss_equal_length pc pr pc pr beta N) by assumption.
  rewrite !zip_with_Rminus_diag, Hpc, Hpr, zip_with_Rminus_replicate_0,
    scale_replicate_0, losses_replicate_0.
  reflexivity.
Qed.

Lemma dpo_loss_policy_is_reference_demo :
  dpo_loss Demo.p_chosen Demo.p_rejected Demo.p_chosen Demo.p_rejected
      default_beta
    = Ok (replicate 2 (ln 2), replicate 2 0, replicate 2 0).
Proof.
  apply (dpo_loss_policy_is_reference Demo.p_chosen Demo.p_rejected
           default_beta 2); reflexivity.
Defined.



End special_inputs.

(** ** Broadcasting and size errors *)

Section broadcasting.

Implicit Types pc pr rc rr a b t : Torch.tensor.
Implicit Types beta : R.
Implicit Types n : nat.

Lemma sub_broadcast_r a (y : R) :
  Torch.sub a [y] = Ok ((λ x, x - y) <$> a).
Proof.
  destruct a as [| x [| z a]]; try reflexivity.
  unfold Torch.sub, Torch.broadcast_size, Torch.expand.
  cbn [length Nat.eqb]. rewrite Nat.eqb_refl. f_equal.
  now apply (zip_with_replicate_r Rminus).
Qed.

Lemma sub_replicate_l (x : R) b :
  Torch.sub (replicate (length b) x) b = Ok (Rminus x <$> b).
Proof.
  rewrite sub_same_length by apply length_replicate.
  f_equal. now apply zip_with_replicate_l.
Qed.

Lemma sub_replicate_r a (y : R) :
  Torch.sub a (replicate (length a) y) = Ok ((λ x, x - y) <$> a).
Proof.
  rewrite sub_same_length by (symmetry; apply length_replicate).
  f_equal. now apply (zip_with_replicate_r Rminus).
Qed.

(** X11.  An input of one element is broadcast: the call returns what it
    returns on the input that repeats the element to the length of the
    tensor it is subtracted with. *)
Theorem dpo_loss_broadcast_singleton (x : R) pc pr rc rr beta :
  dpo_loss [x] pr rc rr beta
    = dpo_loss (replicate (length rc) x) pr rc rr beta ∧
  dpo_loss pc [x] rc rr beta
    = dpo_loss pc (replicate (length rr) x) rc rr beta ∧
  dpo_loss pc pr [x] rr beta
    = dpo_loss pc pr (replicate (length pc) x) rr beta ∧
  dpo_loss pc pr rc [x] beta
    = dpo_loss pc pr rc (replicate (length pr) x) beta.
Proof.
  unfold dpo_loss. repeat split.
  - now rewrite sub_broadcast_l, sub_replicate_l.
  - destruct (Torch.sub pc rc); simpl; [| reflexivity].
    now rewrite sub_broadcast_l, sub_replicate_l.
  - now rewrite sub_broadcast_r, sub_replicate_r.
  - destruct (Torch.sub pc rc); simpl; [| reflexivity].
    now rewrite sub_broadcast_r, sub_replicate_r.
Qed.

Lemma sub_cases a b :
  (Torch.broadcast_size (length a) (length b) = None ∧
   Torch.sub a b = Raise (RuntimeError (length a) (length b))) ∨
  (∃ t, Torch.broadcast_size (length a) (length b) = Some (length t) ∧
        Torch.sub a b = Ok t).
Proof.
  destruct (Torch.sub a b) as [t | e] eqn:Hsub.
  - right. exists t. split; [now apply sub_length | reflexivity].
  - left. unfold Torch.sub in Hsub.
    destruct (Torch.broadcast_size (length a) (length b)); [discriminate |].
    split; [reflexivity | symmetry; exact Hsub].
Qed.

(** X12.  The call returns exactly when the sizes of each of its three
    subtractions broadcast together, and then each reward output has the
    broadcast size of its policy and reference input, and the losses the
    broadcast size of the two reward outputs. *)
Theorem dpo_loss_returns_iff pc pr rc rr beta (n1 n2 n : nat) :
  (∃ losses chosen_rewards rejected_rewards,
     dpo_loss pc pr rc rr beta = Ok (losses, chosen_rewards, rejected_rewards) ∧
     length chosen_rewards = n1 ∧ length rejected_rewards = n2 ∧
     length losses = n) ↔
  Torch.broadcast_size (length pc) (length rc) = Some n1 ∧
  Torch.broadcast_size (length pr) (length rr) = Some n2 ∧
  Torch.broadcast_size n1 n2 = Some n.
Proof.
  unfold dpo_loss.
  destruct (sub_cases pc rc) as [[Hn1 ->] | (cl & Hn1 & ->)]; simpl.
  { rewrite Hn1. split; [intros (? & ? & ? & ? & _) | intros (? & _)];
      discriminate. }
  destruct (sub_cases pr rr) as [[Hn2 ->] | (rl & Hn2 & ->)]; simpl.
  { rewrite Hn2. split; [intros (? & ? & ? & ? & _) | intros (_ & ? & _)];
      discriminate. }
  rewrite Hn1, Hn2.
  destruct (sub_cases cl rl) as [[Hn ->] | (d & Hn & ->)]; simpl.
  - split; [intros (? & ? & ? & ? & _); discriminate |].
    intros ([= <-] & [= <-] & Hn'). congruence.
  - unfold mret, result_ret, Torch.detach, Torch.neg, Torch.logsigmoid,
      Torch.scale.
    split.
    + intros (l & c & r & [= <- <- <-] & Hc & Hr & Hl).
      rewrite length_fmap in Hc, Hr. repeat rewrite length_fmap in Hl.
      subst. auto.
    + intros ([= <-] & [= <-] & Hn'). eexists _, _, _.
      split; [reflexivity |]. rewrite !length_fmap. repeat split. congruence.
Qed.

(** X13.  The call raises exactly the size error of the first of its three
    subtractions, in the order of the source, whose sizes do not broadcast
    together. *)
Theorem dpo_loss_raises_iff pc pr rc rr beta (e : error) :
  dpo_loss pc pr rc rr beta = Raise e ↔
  (Torch.broadcast_size (length pc) (length rc) = None ∧
   e = RuntimeError (length pc) (length rc)) ∨
  (∃ n1, Torch.broadcast_size (length pc) (length rc) = Some n1 ∧
     Torch.broadcast_size (length pr) (length rr) = None ∧
     e = RuntimeError (length pr) (length rr)) ∨
  (∃ n1 n2, Torch.broadcast_size (length pc) (length rc) = Some n1 ∧
     Torch.broadcast_size (length pr) (length rr) = Some n2 ∧
     Torch.broadcast_size n1 n2 = None ∧ e = RuntimeError n1 n2).
Proof.
  unfold dpo_loss.
  destruct (sub_cases pc rc) as [[Hn1 ->] | (cl & Hn1 & ->)]; simpl.
  { rewrite Hn1. split.
    - intros [= <-]. now left.
    - intros [[_ ->] | [(? & ? & _) | (? & ? & ? & _)]];
        [reflexivity | discriminate | discriminate]. }
  destruct (sub_cases pr rr) as [[Hn2 ->] | (rl & Hn2 & ->)]; simpl.
  { rewrite Hn1, Hn2. split.
    - intros [= <-]. right; left. eauto.
    - intros [[? _] | [(? & _ & _ & ->) | (? & ? & _ & ? & _)]];
        [discriminate | reflexivity | discriminate]. }
  rewrite Hn1, Hn2.
  destruct (sub_cases cl rl) as [[Hn ->] | (d & Hn & ->)]; simpl.
  - split.
    + intros [= <-]. right; right. exists (length cl), (length rl). auto.
    + intros [[? _] | [(? & _ & ? & _) | (? & ? & [= <-] & [= <-] & _ & ->)]];
        [discriminate | discriminate | reflexivity].
  - split; [discriminate |].
    intros [[? _] | [(? & _ & ? & _) | (? & ? & [= <-] & [= <-] & ? & _)]];
      [discriminate | discriminate | congruence].
Qed.

End broadcasting.

(** ** What a call allocates *)

Section heap_allocation.

Implicit Types σ : Heap.store.
Implicit Types p q : nat.
Implicit Types x y t : Torch.tensor.

Lemma new_allocates σ t : Heap.allocates (Heap.new t) σ t.
Proof.
  exists (fresh (dom σ)). split; [| reflexivity].
  apply not_elem_of_dom, is_fresh.
Qed.

Lemma sub_allocates σ p q x y t :
  σ !! p = Some x → σ !! q = Some y → Torch.sub x y = Ok t →
  Heap.allocates (Heap.sub p q) σ t.
Proof.
  intros Hp Hq Hsub. unfold Heap.allocates, Heap.sub.
  cbv [mbind Heap.run_bind Heap.lift].
  rewrite (load_allocated σ p x Hp), (load_allocated σ q y Hq), Hsub.
  apply new_allocates.
Qed.

Lemma scale_allocates σ s p x :
  σ !! p = Some x → Heap.allocates (Heap.scale s p) σ (Torch.scale s x).
Proof.
  intros Hp. unfold Heap.allocates, Heap.scale. cbv [mbind Heap.run_bind].
  rewrite (load_allocated σ p x Hp). apply new_allocates.
Qed.

Lemma neg_allocates σ p x :
  σ !! p = Some x → Heap.allocates (Heap.neg p) σ (Torch.neg x).
Proof.
  intros Hp. unfold Heap.allocates, Heap.neg. cbv [mbind Heap.run_bind].
  rewrite (load_allocated σ p x Hp). apply new_allocates.
Qed.

Lemma logsigmoid_allocates σ p x :
  σ !! p = Some x →
  Heap.allocates (Heap.logsigmoid p) σ (Torch.logsigmoid x).
Proof.
  intros Hp. unfold Heap.allocates, Heap.logsigmoid.
  cbv [mbind Heap.run_bind].
  rewrite (load_allocated σ p x Hp). apply new_allocates.
Qed.

(** One statement of the program that allocates its result: the facts about
    the extended store are kept, its construction is forgotten. *)
Ltac alloc_statement Halloc p σ' Hfresh Hsub Hp Hsize :=
  destruct Halloc as (p & Hfresh & ->); cbv iota beta;
  match goal with
  | |- context [<[p:=?t]> ?σ] =>
      pose proof (insert_subseteq σ p t Hfresh) as Hsub;
      pose proof (lookup_insert_eq σ p t) as Hp;
      pose proof (map_size_insert_None p t σ Hfresh) as Hsize;
      set (σ' := <[p:=t]> σ) in *; clearbody σ'
  end.



End heap_allocation.

(** ** The demonstration block *)

(** X15.  The demonstration block does not raise, and the loss it prints is
    [log 2] for both examples of its batch: each policy log-probability
    exceeds its reference by the same 0.1, so both logits are 0. *)
Theorem main_loss : main = Ok [ln 2; ln 2].
Proof. unfold main. now rewrite dpo_loss_demo. Qed.
